(** * Reference-count control block (example.hpp)

    A shallow embedding of [BaseControlBlock] / [DerivedControlBlock] and the
    properties its design document states about it.

    The class keeps one counter, [count], initialised to 1 by the
    constructor; [Decrement] executes [count--], [Increment] executes
    [count++] and [GetCount] returns [count].  Nothing else is stored and
    nothing else is done: there is no managed value, no destructor call and no
    second counter in the source. *)

From Stdlib Require Import ZArith List Bool Lia.
From Stdlib Require Import Permutation.
Import ListNotations.
Local Open Scope Z_scope.

(** ** The C++ type [int]

    [GetCount] returns [int] and the constructor initialises [count] with the
    [int] literal 1; the data member is read as an [int] of 32 bits in two's
    complement.  Arithmetic that leaves the range is modelled by the
    wrap-around the machine instruction performs (the language standard leaves
    signed overflow undefined). *)
Module Int.

Definition bits : Z := 32.
Definition modulus : Z := Eval cbv in 2 ^ bits.
Definition half_modulus : Z := Eval cbv in 2 ^ (bits - 1).
Definition INT_MAX : Z := Eval cbv in half_modulus - 1.
Definition INT_MIN : Z := Eval cbv in - half_modulus.

Definition in_range (z : Z) : Prop := INT_MIN <= z <= INT_MAX.

(** The value of the bit pattern [u] (with [0 <= u < modulus]) read as a
    two's-complement number. *)
Definition signed (u : Z) : Z :=
  if u <? half_modulus then u else u - modulus.

(** The [int] that holds the low [bits] bits of [z]. *)
Definition wrap (z : Z) : Z := signed (z mod modulus).

Definition add (x y : Z) : Z := wrap (x + y).
Definition sub (x y : Z) : Z := wrap (x - y).

End Int.

(** ** Method calls

    A member function is a function from the object's state to an outcome:
    how the call completed, the state it left, and the teardowns of a managed
    value it performed. *)

Inductive event : Type :=
| Teardown.

Inductive completion (A : Type) : Type :=
| Returns (a : A)
| Throws.
Arguments Returns {A} a.
Arguments Throws {A}.

Record outcome (S A : Type) : Type := Outcome {
  completed : completion A;
  post : S;
  emitted : list event
}.
Arguments Outcome {S A} _ _ _.
Arguments completed {S A} _.
Arguments post {S A} _.
Arguments emitted {S A} _.

Definition method (S A : Type) : Type := S -> outcome S A.

Definition ret {S A : Type} (a : A) : method S A :=
  fun s => Outcome (Returns a) s [].

Definition bind {S A B : Type} (m : method S A) (k : A -> method S B)
  : method S B :=
  fun s =>
    let o := m s in
    match completed o with
    | Returns a =>
        let o' := k a (post o) in
        Outcome (completed o') (post o') (emitted o ++ emitted o')
    | Throws => Outcome Throws (post o) (emitted o)
    end.

Notation "x <- m ;; k" := (bind m (fun x => k))
  (at level 61, m at next level, right associativity).
Notation "m ;;; k" := (bind m (fun _ => k))
  (at level 61, right associativity).

(** The values the interface hands back: nothing ([void]), an [int], or (for
    the upgrade of the design document) a success flag. *)
Inductive value : Type :=
| VVoid
| VInt (z : Z)
| VBool (b : bool).

(** ** [class BaseControlBlock]: three pure virtual methods. *)
Class BaseControlBlock (T : Type) : Type := {
  Decrement : method T unit;
  Increment : method T unit;
  GetCount : method T Z
}.

(** ** [class DerivedControlBlock]

    The object's state is its one data member, [count].  The member's
    declaration is not part of the source text; its type is taken from the
    return type of [GetCount], [int]. *)
Record DerivedControlBlock : Type := { count : Z }.

(** [DerivedControlBlock() : count(1) {}] *)
Definition DerivedControlBlock_new : DerivedControlBlock := {| count := 1 |}.

Definition load_count : method DerivedControlBlock Z :=
  fun cb => Outcome (Returns (count cb)) cb [].

Definition store_count (z : Z) : method DerivedControlBlock unit :=
  fun _ => Outcome (Returns tt) {| count := z |} [].

#[export] Instance DerivedControlBlock_methods
  : BaseControlBlock DerivedControlBlock := {
  (* count--; *)
  Decrement := c <- load_count ;; store_count (Int.sub c 1);
  (* count++; *)
  Increment := c <- load_count ;; store_count (Int.add c 1);
  (* return count; *)
  GetCount := c <- load_count ;; ret c
}.

(** ** Sequences of calls through the interface *)

Inductive call : Type :=
| CallDecrement
| CallIncrement
| CallGetCount.

Definition invoke {T : Type} `{BaseControlBlock T} (c : call)
  : method T value :=
  match c with
  | CallDecrement => Decrement ;;; ret VVoid
  | CallIncrement => Increment ;;; ret VVoid
  | CallGetCount => z <- GetCount ;; ret (VInt z)
  end.

Section Runs.
Context {S C : Type} (inv : C -> method S value).

(** The calls of [cs] one after the other; the values handed back, in
    order. *)
Fixpoint run (cs : list C) : method S (list value) :=
  match cs with
  | [] => ret []
  | c :: cs' => v <- inv c ;; vs <- run cs' ;; ret (v :: vs)
  end.

(** The state each call of [cs] leaves, in order. *)
Fixpoint states (cs : list C) (s : S) : list S :=
  match cs with
  | [] => []
  | c :: cs' => let s' := post (inv c s) in s' :: states cs' s'
  end.

(** Every call of [cs] is made in a state that satisfies [pre]. *)
Fixpoint respects (pre : C -> S -> bool) (cs : list C) (s : S) : bool :=
  match cs with
  | [] => true
  | c :: cs' => pre c s && respects pre cs' (post (inv c s))
  end.
End Runs.

Definition teardowns {S A : Type} (o : outcome S A) : nat :=
  length (filter (fun e => match e with Teardown => true end) (emitted o)).

Definition is_Decrement (c : call) : bool :=
  match c with CallDecrement => true | _ => false end.

(** How many [Decrement] calls of [cs] leave the counter at 0. *)
Fixpoint zero_decrements (cs : list call) (cb : DerivedControlBlock) : nat :=
  match cs with
  | [] => 0%nat
  | c :: cs' =>
      let cb' := post (invoke c cb) in
      Nat.add (if is_Decrement c && (count cb' =? 0) then 1%nat else 0%nat)
              (zero_decrements cs' cb')
  end.

(** *** Caller contracts

    The design document puts these on the caller; the code checks none. *)

(** The caller of [Increment] and of [Decrement] holds a reference:
    [count >= 1] at the call. *)
Definition holds_reference (c : call) (cb : DerivedControlBlock) : bool :=
  match c with
  | CallGetCount => true
  | _ => 1 <=? count cb
  end.

(** [Decrement] is called with [count >= 1], [Increment] below [INT_MAX]. *)
Definition stays_non_negative (c : call) (cb : DerivedControlBlock) : bool :=
  match c with
  | CallDecrement => 1 <=? count cb
  | CallIncrement => count cb <? Int.INT_MAX
  | CallGetCount => true
  end.

(** [Increment] is called with [count >= 1], [Decrement] above [INT_MIN]. *)
Definition no_revival (c : call) (cb : DerivedControlBlock) : bool :=
  match c with
  | CallIncrement => 1 <=? count cb
  | CallDecrement => Int.INT_MIN <? count cb
  | CallGetCount => true
  end.

(** [n] callers that each call [Increment] and later [Decrement], in any
    interleaving: no [Decrement] comes before the [Increment] it is paired
    with, and none is left unpaired.  [pending] counts the callers that have
    incremented and not yet decremented. *)
Fixpoint paired (pending : nat) (cs : list call) : bool :=
  match cs with
  | [] => Nat.eqb pending 0
  | CallIncrement :: cs' => paired (Datatypes.S pending) cs'
  | CallDecrement :: cs' =>
      match pending with
      | O => false
      | Datatypes.S k => paired k cs'
      end
  | CallGetCount :: cs' => paired pending cs'
  end.

(** [Increment] calls minus [Decrement] calls. *)
Fixpoint net (cs : list call) : Z :=
  match cs with
  | [] => 0
  | CallIncrement :: cs' => 1 + net cs'
  | CallDecrement :: cs' => net cs' - 1
  | CallGetCount :: cs' => net cs'
  end.

(** ** The two-counter block of the design document

    The design document describes a block with a strong and a weak counter
    whose strong half "mirrors" the source's single counter.  The strong half
    below IS the source's class; the weak half and the upgrade follow the
    document. *)

(** Modelled from the spec: the weak counter is not in the source.  "two
    independent counters", [strong_count] (here the source's
    [DerivedControlBlock]) and [weak_count]. *)
Record ControlBlock : Type := {
  strong : DerivedControlBlock;
  weak_count : Z
}.

(** Modelled from the spec: the source's constructor only sets [count(1)];
    "created with strong_count = 1, weak_count = 0". *)
Definition ControlBlock_new : ControlBlock :=
  {| strong := DerivedControlBlock_new; weak_count := 0 |}.

(** A method of the source's class, called on the strong half. *)
Definition on_strong {A : Type} (m : method DerivedControlBlock A)
  : method ControlBlock A :=
  fun cb =>
    let o := m (strong cb) in
    Outcome (completed o)
            {| strong := post o; weak_count := weak_count cb |}
            (emitted o).

(** [AcquireStrong], [ReleaseStrong] and [GetStrongCount] are the source's
    [Increment], [Decrement] and [GetCount]. *)
Definition AcquireStrong : method ControlBlock unit := on_strong Increment.
Definition ReleaseStrong : method ControlBlock unit := on_strong Decrement.
Definition GetStrongCount : method ControlBlock Z := on_strong GetCount.

(** Modelled from the spec: [AcquireWeak] is not in the source.  "increments
    weak_count atomically.  Always succeeds regardless of strong_count". *)
Definition AcquireWeak : method ControlBlock unit :=
  fun cb =>
    Outcome (Returns tt)
            {| strong := strong cb; weak_count := Int.add (weak_count cb) 1 |}
            [].

(** Modelled from the spec: [ReleaseWeak] is not in the source.  "decrements
    weak_count atomically" (the release of the block's storage is left
    out). *)
Definition ReleaseWeak : method ControlBlock unit :=
  fun cb =>
    Outcome (Returns tt)
            {| strong := strong cb; weak_count := Int.sub (weak_count cb) 1 |}
            [].

(** Modelled from the spec: [GetWeakCount] is not in the source.  A
    "diagnostic read" of [weak_count]. *)
Definition GetWeakCount : method ControlBlock Z :=
  fun cb => Outcome (Returns (weak_count cb)) cb [].

(** Modelled from the spec: [TryUpgrade] is not in the source.  "Must
    atomically check strong_count > 0 and, if so, increment it in the same
    atomic step.  Fails (no strong reference produced) if strong_count is
    already 0." *)
Definition TryUpgrade : method ControlBlock bool :=
  c <- GetStrongCount ;;
  if 0 <? c then AcquireStrong ;;; ret true else ret false.

Inductive operation : Type :=
| OpAcquireStrong
| OpReleaseStrong
| OpAcquireWeak
| OpReleaseWeak
| OpTryUpgrade
| OpGetStrongCount
| OpGetWeakCount.

Definition perform (op : operation) : method ControlBlock value :=
  match op with
  | OpAcquireStrong => AcquireStrong ;;; ret VVoid
  | OpReleaseStrong => ReleaseStrong ;;; ret VVoid
  | OpAcquireWeak => AcquireWeak ;;; ret VVoid
  | OpReleaseWeak => ReleaseWeak ;;; ret VVoid
  | OpTryUpgrade => b <- TryUpgrade ;; ret (VBool b)
  | OpGetStrongCount => z <- GetStrongCount ;; ret (VInt z)
  | OpGetWeakCount => z <- GetWeakCount ;; ret (VInt z)
  end.


(** * Properties *)

(** ** Arithmetic of [int] *)
Module IntFacts.
Import Int.

Ltac unfold_int :=
  unfold add, sub, wrap, signed, in_range,
         modulus, half_modulus, INT_MAX, INT_MIN in *.

Lemma mod_bounds (z : Z) : 0 <= z mod modulus < modulus.
Proof. apply Z.mod_pos_bound. reflexivity. Qed.

Lemma wrap_range (z : Z) : in_range (wrap z).
Proof.
  pose proof (mod_bounds z) as Hb. unfold_int.
  destruct (Z.ltb_spec (z mod 4294967296) 2147483648); lia.
Qed.

Lemma wrap_small (z : Z) : in_range z -> wrap z = z.
Proof.
  intros Hz. unfold wrap, signed.
  destruct (Z_lt_ge_dec z 0) as [Hneg | Hpos].
  - assert (Hm : z mod modulus = z + modulus).
    { symmetry. apply Z.mod_unique_pos with (q := -1); unfold_int; lia. }
    rewrite Hm. unfold_int.
    destruct (Z.ltb_spec (z + 4294967296) 2147483648); lia.
  - rewrite Z.mod_small by (unfold_int; lia). unfold_int.
    destruct (Z.ltb_spec z 2147483648); lia.
Qed.

Lemma wrap_mod (z : Z) : wrap z mod modulus = z mod modulus.
Proof.
  unfold wrap, signed.
  destruct (z mod modulus <? half_modulus).
  - apply Z.mod_mod. discriminate.
  - replace (z mod modulus - modulus) with (z mod modulus + (-1) * modulus)
      by ring.
    rewrite Z.mod_add by discriminate. apply Z.mod_mod. discriminate.
Qed.

Lemma wrap_congr (a b : Z) : a mod modulus = b mod modulus -> wrap a = wrap b.
Proof. unfold wrap. intros ->. reflexivity. Qed.

Lemma wrap_add_l (a b : Z) : wrap (wrap a + b) = wrap (a + b).
Proof.
  apply wrap_congr.
  rewrite Z.add_mod by discriminate. rewrite wrap_mod.
  rewrite <- Z.add_mod by discriminate. reflexivity.
Qed.

Lemma add_no_overflow (x : Z) :
  in_range x -> x < INT_MAX -> add x 1 = x + 1.
Proof. intros Hx Hlt. apply wrap_small. unfold_int. lia. Qed.

Lemma sub_no_underflow (x : Z) :
  in_range x -> INT_MIN < x -> sub x 1 = x - 1.
Proof. intros Hx Hlt. apply wrap_small. unfold_int. lia. Qed.

Lemma add_INT_MAX : add INT_MAX 1 = INT_MIN.
Proof. reflexivity. Qed.

Lemma sub_INT_MIN : sub INT_MIN 1 = INT_MAX.
Proof. reflexivity. Qed.

End IntFacts.

(** ** The three methods, call by call *)

Lemma Decrement_eq (cb : DerivedControlBlock) :
  Decrement cb = Outcome (Returns tt) {| count := Int.sub (count cb) 1 |} [].
Proof. reflexivity. Qed.

Lemma Increment_eq (cb : DerivedControlBlock) :
  Increment cb = Outcome (Returns tt) {| count := Int.add (count cb) 1 |} [].
Proof. reflexivity. Qed.

Lemma GetCount_eq (cb : DerivedControlBlock) :
  GetCount cb = Outcome (Returns (count cb)) cb [].
Proof. reflexivity. Qed.

Lemma invoke_completed (c : call) (cb : DerivedControlBlock) :
  completed (invoke c cb)
  = Returns match c with CallGetCount => VInt (count cb) | _ => VVoid end.
Proof. destruct c; reflexivity. Qed.

Lemma invoke_post (c : call) (cb : DerivedControlBlock) :
  post (invoke c cb)
  = match c with
    | CallDecrement => {| count := Int.sub (count cb) 1 |}
    | CallIncrement => {| count := Int.add (count cb) 1 |}
    | CallGetCount => cb
    end.
Proof. destruct c; reflexivity. Qed.

Lemma invoke_emitted (c : call) (cb : DerivedControlBlock) :
  emitted (invoke c cb) = [].
Proof. destruct c; reflexivity. Qed.

Lemma invoke_returns (c : call) (cb : DerivedControlBlock) :
  exists v, completed (invoke c cb) = Returns v.
Proof. rewrite invoke_completed. eauto. Qed.

Lemma invoke_in_range (c : call) (cb : DerivedControlBlock) :
  Int.in_range (count cb) -> Int.in_range (count (post (invoke c cb))).
Proof.
  intros Hr. rewrite invoke_post.
  destruct c; cbn; unfold Int.sub, Int.add; auto using IntFacts.wrap_range.
Qed.

(** ** Sequencing *)

Lemma bind_returns {S A B : Type} (m : method S A) (k : A -> method S B)
    (s : S) (a : A) :
  completed (m s) = Returns a ->
  bind m k s
  = Outcome (completed (k a (post (m s))))
            (post (k a (post (m s))))
            (emitted (m s) ++ emitted (k a (post (m s)))).
Proof. intros Ha. unfold bind. rewrite Ha. reflexivity. Qed.

(** ** Sequences of calls *)
Section RunFacts.
Context {S C : Type} (inv : C -> method S value).
Hypothesis inv_returns : forall c s, exists v, completed (inv c s) = Returns v.

Lemma run_cons (c : C) (cs : list C) (s : S) (v : value) (vs : list value) :
  completed (inv c s) = Returns v ->
  completed (run inv cs (post (inv c s))) = Returns vs ->
  run inv (c :: cs) s
  = Outcome (Returns (v :: vs))
            (post (run inv cs (post (inv c s))))
            (emitted (inv c s) ++ emitted (run inv cs (post (inv c s)))).
Proof.
  intros Hv Hvs. cbn [run].
  rewrite (bind_returns _ _ _ _ Hv), (bind_returns _ _ _ _ Hvs).
  cbn. rewrite app_nil_r. reflexivity.
Qed.

Lemma run_returns (cs : list C) (s : S) :
  exists vs, completed (run inv cs s) = Returns vs /\ length vs = length cs.
Proof.
  revert s. induction cs as [|c cs IH]; intros s.
  - exists []. split; reflexivity.
  - destruct (inv_returns c s) as [v Hv].
    destruct (IH (post (inv c s))) as [vs [Hvs Hlen]].
    exists (v :: vs). rewrite (run_cons c cs s v vs Hv Hvs). cbn.
    split; [reflexivity | now rewrite Hlen].
Qed.

Lemma post_run_cons (c : C) (cs : list C) (s : S) :
  post (run inv (c :: cs) s) = post (run inv cs (post (inv c s))).
Proof.
  destruct (inv_returns c s) as [v Hv].
  destruct (run_returns cs (post (inv c s))) as [vs [Hvs _]].
  now rewrite (run_cons c cs s v vs Hv Hvs).
Qed.

Lemma emitted_run_cons (c : C) (cs : list C) (s : S) :
  emitted (run inv (c :: cs) s)
  = emitted (inv c s) ++ emitted (run inv cs (post (inv c s))).
Proof.
  destruct (inv_returns c s) as [v Hv].
  destruct (run_returns cs (post (inv c s))) as [vs [Hvs _]].
  now rewrite (run_cons c cs s v vs Hv Hvs).
Qed.

Lemma post_run_app (cs1 cs2 : list C) (s : S) :
  post (run inv (cs1 ++ cs2) s) = post (run inv cs2 (post (run inv cs1 s))).
Proof.
  revert s. induction cs1 as [|c cs1 IH]; intros s.
  - reflexivity.
  - rewrite <- app_comm_cons, !post_run_cons. apply IH.
Qed.


Lemma completed_run_app (cs1 cs2 : list C) (s : S) (vs1 vs2 : list value) :
  completed (run inv cs1 s) = Returns vs1 ->
  completed (run inv cs2 (post (run inv cs1 s))) = Returns vs2 ->
  completed (run inv (cs1 ++ cs2) s) = Returns (vs1 ++ vs2).
Proof.
  revert s vs1. induction cs1 as [|c cs1 IH]; intros s vs1 H1 H2.
  - cbn in H1. injection H1 as <-. exact H2.
  - destruct (inv_returns c s) as [v Hv].
    destruct (run_returns cs1 (post (inv c s))) as [ws [Hws _]].
    rewrite (run_cons c cs1 s v ws Hv Hws) in H1. cbn in H1.
    injection H1 as <-.
    rewrite post_run_cons in H2.
    specialize (IH _ _ Hws H2).
    rewrite <- !app_comm_cons.
    now rewrite (run_cons c (cs1 ++ cs2) s v (ws ++ vs2) Hv IH).
Qed.


Lemma run_silent (cs : list C) (s : S) :
  (forall c s', emitted (inv c s') = []) -> emitted (run inv cs s) = [].
Proof.
  intros Hsilent. revert s. induction cs as [|c cs IH]; intros s.
  - reflexivity.
  - now rewrite emitted_run_cons, Hsilent, IH.
Qed.
End RunFacts.

(** ** The counter along a sequence of calls *)

Lemma run_in_range (cs : list call) (cb : DerivedControlBlock) :
  Int.in_range (count cb) ->
  Int.in_range (count (post (run invoke cs cb))).
Proof.
  revert cb. induction cs as [|c cs IH]; intros cb Hr.
  - exact Hr.
  - rewrite (post_run_cons invoke invoke_returns).
    apply IH, invoke_in_range, Hr.
Qed.

(** The counter after [cs] is the counter before plus the increments minus
    the decrements, as an [int]. *)
Lemma count_after_run (cs : list call) (cb : DerivedControlBlock) :
  Int.in_range (count cb) ->
  count (post (run invoke cs cb)) = Int.wrap (count cb + net cs).
Proof.
  revert cb. induction cs as [|c cs IH]; intros cb Hr.
  - cbn. rewrite Z.add_0_r. symmetry. now apply IntFacts.wrap_small.
  - rewrite (post_run_cons invoke invoke_returns).
    rewrite IH by now apply invoke_in_range.
    rewrite invoke_post.
    destruct c; cbn [count net]; unfold Int.sub, Int.add.
    + rewrite IntFacts.wrap_add_l. f_equal. ring.
    + rewrite IntFacts.wrap_add_l. f_equal. ring.
    + reflexivity.
Qed.

Lemma no_teardown (cs : list call) (cb : DerivedControlBlock) :
  teardowns (run invoke cs cb) = 0%nat.
Proof.
  unfold teardowns.
  now rewrite (run_silent invoke invoke_returns cs cb invoke_emitted).
Qed.

Lemma net_repeat_Increment (n : nat) :
  net (repeat CallIncrement n) = Z.of_nat n.
Proof.
  induction n as [|n IH].
  - reflexivity.
  - cbn [repeat net]. rewrite IH. lia.
Qed.

Lemma paired_net (cs : list call) (pending : nat) :
  paired pending cs = true -> net cs = - Z.of_nat pending.
Proof.
  revert pending. induction cs as [|c cs IH]; intros pending Hp.
  - cbn in Hp. apply Nat.eqb_eq in Hp. now subst.
  - destruct c; cbn [paired net] in *.
    + destruct pending as [|k]; [discriminate|].
      rewrite (IH _ Hp). lia.
    + rewrite (IH _ Hp). lia.
    + exact (IH _ Hp).
Qed.

Lemma paired_in_turn (n : nat) :
  paired 0 (concat (repeat [CallIncrement; CallDecrement] n)) = true.
Proof.
  induction n as [|n IH].
  - reflexivity.
  - exact IH.
Qed.

(** ** Properties of the source's class *)

(** C4.  On a fresh block (count 1), any interleaving of callers that each
    call [Increment] and later [Decrement] leaves the counter at 1 once all
    have finished: [GetCount] then returns 1, and no teardown of a managed
    value has run. *)
Theorem paired_calls_restore_count (cs : list call) :
  paired 0 cs = true ->
  count (post (run invoke cs DerivedControlBlock_new)) = 1
  /\ completed (GetCount (post (run invoke cs DerivedControlBlock_new)))
     = Returns 1
  /\ teardowns (run invoke cs DerivedControlBlock_new) = 0%nat.
Proof.
  intros Hp.
  assert (Hc : count (post (run invoke cs DerivedControlBlock_new)) = 1).
  { rewrite count_after_run by (cbn; IntFacts.unfold_int; lia).
    rewrite (paired_net cs 0 Hp). reflexivity. }
  split; [exact Hc|]. split.
  - rewrite GetCount_eq. cbn. now rewrite Hc.
  - apply no_teardown.
Qed.

(** Three callers, interleaved. *)
Lemma paired_calls_restore_count_witness :
  let cs := [CallIncrement; CallIncrement; CallDecrement; CallIncrement;
             CallDecrement; CallDecrement] in
  paired 0 cs = true
  /\ count (post (run invoke cs DerivedControlBlock_new)) = 1.
Proof.
  intros cs. split.
  - reflexivity.
  - apply (paired_calls_restore_count cs). reflexivity.
Defined.

(** C8.  [Decrement], [Increment] and [GetCount] complete normally in every
    state of the block, and so does every sequence of calls: each call hands
    back its value and none throws. *)
Theorem counter_operations_total (cb : DerivedControlBlock) :
  completed (Decrement cb) = Returns tt
  /\ completed (Increment cb) = Returns tt
  /\ completed (GetCount cb) = Returns (count cb)
  /\ forall cs : list call,
       exists vs, completed (run invoke cs cb) = Returns vs
                  /\ length vs = length cs.
Proof.
  repeat split.
  intros cs. apply (run_returns invoke invoke_returns).
Qed.

(** C9.  [GetCount] returns the counter and leaves the block as it was; a
    [GetCount] call put anywhere into a sequence of calls changes neither the
    values the other calls hand back nor the final state. *)
Theorem GetCount_pure_observer (cb : DerivedControlBlock) :
  GetCount cb = Outcome (Returns (count cb)) cb []
  /\ forall cs1 cs2 : list call,
       exists vs1 vs2,
         length vs1 = length cs1
         /\ completed (run invoke (cs1 ++ cs2) cb) = Returns (vs1 ++ vs2)
         /\ run invoke (cs1 ++ CallGetCount :: cs2) cb
            = Outcome
                (Returns (vs1 ++ VInt (count (post (run invoke cs1 cb))) :: vs2))
                (post (run invoke (cs1 ++ cs2) cb))
                (emitted (run invoke (cs1 ++ cs2) cb)).
Proof.
  split; [reflexivity|].
  intros cs1 cs2.
  destruct (run_returns invoke invoke_returns cs1 cb) as [vs1 [H1 Hlen]].
  destruct (run_returns invoke invoke_returns cs2 (post (run invoke cs1 cb)))
    as [vs2 [H2 _]].
  exists vs1, vs2. split; [exact Hlen|]. split.
  - now apply (completed_run_app invoke invoke_returns).
  - pose proof (completed_run_app invoke invoke_returns cs1
                  (CallGetCount :: cs2) cb vs1
                  (VInt (count (post (run invoke cs1 cb))) :: vs2) H1) as Hc.
    rewrite (run_cons invoke CallGetCount cs2 (post (run invoke cs1 cb)) _ vs2
               (invoke_completed CallGetCount _) H2) in Hc.
    specialize (Hc eq_refl).
    destruct (run invoke (cs1 ++ CallGetCount :: cs2) cb) as [r p e] eqn:E.
    cbn in Hc. subst r. f_equal.
    + change p with (post (Outcome (Returns (vs1 ++ VInt (count (post (run invoke cs1 cb))) :: vs2)) p e)).
      rewrite <- E.
      rewrite !(post_run_app invoke invoke_returns).
      now rewrite (post_run_cons invoke invoke_returns).
    + change e with (emitted (Outcome (Returns (vs1 ++ VInt (count (post (run invoke cs1 cb))) :: vs2)) p e)).
      rewrite <- E.
      rewrite !(run_silent invoke invoke_returns) by apply invoke_emitted.
      reflexivity.
Qed.

(** C10.  The counter is a 32-bit [int]: after [n] calls of [Increment] on a
    fresh block [GetCount] returns the two's-complement reading of
    [(1 + n) mod 2^32]; [Increment] takes [INT_MAX] to [INT_MIN] and
    [Decrement] takes [INT_MIN] to [INT_MAX]. *)
Theorem counter_wraps_as_int32 (n : nat) :
  completed
    (GetCount (post (run invoke (repeat CallIncrement n) DerivedControlBlock_new)))
  = Returns (Int.signed ((1 + Z.of_nat n) mod 2 ^ 32))
  /\ Int.INT_MAX = 2147483647
  /\ Int.INT_MIN = -2147483648
  /\ post (Increment {| count := Int.INT_MAX |}) = {| count := Int.INT_MIN |}
  /\ post (Decrement {| count := Int.INT_MIN |}) = {| count := Int.INT_MAX |}.
Proof.
  split; [|repeat split].
  rewrite GetCount_eq. cbn [completed]. f_equal.
  rewrite count_after_run by (cbn; IntFacts.unfold_int; lia).
  rewrite net_repeat_Increment. reflexivity.
Qed.

(** ** The counter under the caller contracts *)

Lemma stays_non_negative_step (c : call) (cb : DerivedControlBlock) :
  Int.in_range (count cb) ->
  0 <= count cb ->
  stays_non_negative c cb = true ->
  0 <= count (post (invoke c cb)).
Proof.
  intros Hr H0 Hpre. rewrite invoke_post.
  destruct c; cbn in *.
  - apply Z.leb_le in Hpre.
    rewrite IntFacts.sub_no_underflow; [lia | exact Hr |].
    IntFacts.unfold_int. lia.
  - apply Z.ltb_lt in Hpre.
    rewrite IntFacts.add_no_overflow; [lia | exact Hr | exact Hpre].
  - exact H0.
Qed.

Lemma stays_non_negative_states (cs : list call) (cb : DerivedControlBlock) :
  Int.in_range (count cb) ->
  0 <= count cb ->
  respects invoke stays_non_negative cs cb = true ->
  Forall (fun cb' => 0 <= count cb') (states invoke cs cb).
Proof.
  revert cb. induction cs as [|c cs IH]; intros cb Hr H0 Hres.
  - constructor.
  - cbn [respects] in Hres. apply andb_prop in Hres as [Hpre Hres].
    cbn [states]. constructor.
    + now apply stays_non_negative_step.
    + apply IH; [now apply invoke_in_range | | exact Hres].
      now apply stays_non_negative_step.
Qed.

Lemma no_revival_step (c : call) (cb : DerivedControlBlock) :
  Int.in_range (count cb) ->
  count cb <= 0 ->
  no_revival c cb = true ->
  count (post (invoke c cb)) <= 0.
Proof.
  intros Hr H0 Hpre. rewrite invoke_post.
  destruct c; cbn in *.
  - apply Z.ltb_lt in Hpre.
    rewrite IntFacts.sub_no_underflow; [lia | exact Hr | exact Hpre].
  - apply Z.leb_le in Hpre. lia.
  - exact H0.
Qed.

Lemma no_revival_states (cs : list call) (cb : DerivedControlBlock) :
  Int.in_range (count cb) ->
  count cb <= 0 ->
  respects invoke no_revival cs cb = true ->
  Forall (fun cb' => count cb' <= 0) (states invoke cs cb).
Proof.
  revert cb. induction cs as [|c cs IH]; intros cb Hr H0 Hres.
  - constructor.
  - cbn [respects] in Hres. apply andb_prop in Hres as [Hpre Hres].
    cbn [states]. constructor.
    + now apply no_revival_step.
    + apply IH; [now apply invoke_in_range | | exact Hres].
      now apply no_revival_step.
Qed.

(** Without a reference ([count < 1]) the contract allows only [GetCount]:
    the counter stays where it is and no [Decrement] reaches 0. *)
Lemma released_block_is_frozen (cs : list call) (cb : DerivedControlBlock) :
  count cb < 1 ->
  respects invoke holds_reference cs cb = true ->
  zero_decrements cs cb = 0%nat
  /\ post (run invoke cs cb) = cb.
Proof.
  revert cb. induction cs as [|c cs IH]; intros cb Hlt Hres.
  - split; reflexivity.
  - cbn [respects] in Hres. apply andb_prop in Hres as [Hpre Hres].
    rewrite (post_run_cons invoke invoke_returns).
    destruct c; cbn in Hpre; try (apply Z.leb_le in Hpre; lia).
    cbn [zero_decrements is_Decrement andb Nat.add].
    apply IH; assumption.
Qed.

(** With a reference, at most one [Decrement] of a contract-respecting
    sequence reaches 0, and one does exactly when the sequence ends at 0. *)
Lemma zero_decrements_once (cs : list call) (cb : DerivedControlBlock) :
  Int.in_range (count cb) ->
  1 <= count cb ->
  respects invoke holds_reference cs cb = true ->
  (zero_decrements cs cb <= 1)%nat
  /\ (zero_decrements cs cb = 1%nat <-> count (post (run invoke cs cb)) = 0).
Proof.
  revert cb. induction cs as [|c cs IH]; intros cb Hr H1 Hres.
  - cbn. split; [lia|]. split; [discriminate | lia].
  - cbn [respects] in Hres. apply andb_prop in Hres as [Hpre Hres].
    rewrite (post_run_cons invoke invoke_returns).
    cbn [zero_decrements].
    pose proof (invoke_in_range c cb Hr) as Hr'.
    revert Hres Hr'. rewrite invoke_post.
    destruct c; cbn [is_Decrement andb count]; intros Hres Hr'.
    + (* Decrement *)
      rewrite IntFacts.sub_no_underflow in *
        by (try assumption; IntFacts.unfold_int; lia).
      destruct (Z.eqb_spec (count cb - 1) 0) as [Hz | Hnz].
      * destruct (released_block_is_frozen cs {| count := count cb - 1 |})
          as [Hzd Hpost]; [cbn; lia | exact Hres |].
        rewrite Hzd, Hpost. cbn. split; [lia|]. split; auto.
      * apply (IH {| count := count cb - 1 |}); [exact Hr' | cbn; lia | exact Hres].
    + (* Increment *)
      destruct (Z_lt_ge_dec (count cb) Int.INT_MAX) as [Hlt | Hge].
      * rewrite IntFacts.add_no_overflow in * by assumption.
        apply (IH {| count := count cb + 1 |}); [exact Hr' | cbn; lia | exact Hres].
      * assert (Hmax : count cb = Int.INT_MAX)
          by (IntFacts.unfold_int; lia).
        rewrite Hmax in *. rewrite IntFacts.add_INT_MAX in *.
        destruct (released_block_is_frozen cs {| count := Int.INT_MIN |})
          as [Hzd Hpost]; [cbn; IntFacts.unfold_int; lia | exact Hres |].
        rewrite Hzd, Hpost. cbn. split; [lia|].
        split; [discriminate | IntFacts.unfold_int; lia].
    + (* GetCount *)
      apply IH; assumption.
Qed.

Lemma stays_non_negative_run (cs : list call) (cb : DerivedControlBlock) :
  Int.in_range (count cb) ->
  0 <= count cb ->
  respects invoke stays_non_negative cs cb = true ->
  0 <= count (post (run invoke cs cb)).
Proof.
  revert cb. induction cs as [|c cs IH]; intros cb Hr H0 Hres.
  - exact H0.
  - cbn [respects] in Hres. apply andb_prop in Hres as [Hpre Hres].
    rewrite (post_run_cons invoke invoke_returns).
    apply IH; [now apply invoke_in_range | | exact Hres].
    now apply stays_non_negative_step.
Qed.

Lemma no_revival_run (cs : list call) (cb : DerivedControlBlock) :
  Int.in_range (count cb) ->
  count cb <= 0 ->
  respects invoke no_revival cs cb = true ->
  count (post (run invoke cs cb)) <= 0.
Proof.
  revert cb. induction cs as [|c cs IH]; intros cb Hr H0 Hres.
  - exact H0.
  - cbn [respects] in Hres. apply andb_prop in Hres as [Hpre Hres].
    rewrite (post_run_cons invoke invoke_returns).
    apply IH; [now apply invoke_in_range | | exact Hres].
    now apply no_revival_step.
Qed.

(** [INT_MAX - 1] increments take a fresh block to [INT_MAX]; one more takes
    it to [INT_MIN]. *)
Lemma Increment_overflow_reachable :
  count (post (run invoke (repeat CallIncrement (Z.to_nat 2147483647))
                   DerivedControlBlock_new))
  = Int.INT_MIN.
Proof.
  rewrite count_after_run by (cbn; IntFacts.unfold_int; lia).
  rewrite net_repeat_Increment, Z2Nat.id by lia.
  reflexivity.
Qed.

(** Without a reference the contract leaves no [Increment] and no
    [Decrement] to call. *)
Lemma released_block_net (cs : list call) (cb : DerivedControlBlock) :
  count cb < 1 ->
  respects invoke holds_reference cs cb = true ->
  net cs = 0.
Proof.
  revert cb. induction cs as [|c cs IH]; intros cb Hlt Hres.
  - reflexivity.
  - cbn [respects] in Hres. apply andb_prop in Hres as [Hpre Hres].
    destruct c; cbn in Hpre; try (apply Z.leb_le in Hpre; lia).
    cbn [net]. exact (IH cb Hlt Hres).
Qed.

(** Under the contract the counter is the counter at the start plus the
    increments minus the decrements, except right after the [Increment] made
    at [INT_MAX], which leaves [INT_MIN]. *)
Lemma contract_count (cs : list call) (cb : DerivedControlBlock) :
  Int.in_range (count cb) ->
  respects invoke holds_reference cs cb = true ->
  count (post (run invoke cs cb)) = count cb + net cs
  \/ (count (post (run invoke cs cb)) = Int.INT_MIN
      /\ count cb + net cs = Int.INT_MAX + 1).
Proof.
  revert cb. induction cs as [|c cs IH]; intros cb Hr Hres.
  - left. cbn. lia.
  - cbn [respects] in Hres. apply andb_prop in Hres as [Hpre Hres].
    rewrite (post_run_cons invoke invoke_returns).
    pose proof (invoke_in_range c cb Hr) as Hr'.
    revert Hres Hr'. rewrite invoke_post.
    destruct c; cbn [count net]; intros Hres Hr'.
    + (* Decrement *)
      cbn in Hpre. apply Z.leb_le in Hpre.
      rewrite IntFacts.sub_no_underflow in *
        by (try assumption; IntFacts.unfold_int; lia).
      destruct (IH {| count := count cb - 1 |} Hr' Hres) as [H | [H1 H2]];
        cbn [count] in *; [left | right]; lia.
    + (* Increment *)
      cbn in Hpre. apply Z.leb_le in Hpre.
      destruct (Z_lt_ge_dec (count cb) Int.INT_MAX) as [Hlt | Hge].
      * rewrite IntFacts.add_no_overflow in * by assumption.
        destruct (IH {| count := count cb + 1 |} Hr' Hres) as [H | [H1 H2]];
          cbn [count] in *; [left | right]; lia.
      * assert (Hmax : count cb = Int.INT_MAX)
          by (IntFacts.unfold_int; lia).
        rewrite Hmax in *. rewrite IntFacts.add_INT_MAX in *.
        assert (Hlow : count {| count := Int.INT_MIN |} < 1)
          by (cbn; IntFacts.unfold_int; lia).
        destruct (released_block_is_frozen cs _ Hlow Hres) as [_ Hpost].
        rewrite Hpost, (released_block_net cs _ Hlow Hres).
        right. cbn. split; [reflexivity | lia].
    + (* GetCount *)
      exact (IH cb Hr Hres).
Qed.

(** C1, as the code has it.  No call runs a teardown of a managed value:
    [Decrement] only decrements the counter, whatever value it reaches.  What
    the code provides is the transition at which a teardown is due: when every
    [Increment] and [Decrement] of a sequence on a fresh block is made while
    [count >= 1], at most one [Decrement] leaves the counter at 0; exactly one
    does when the sequence ends with the counter at 0, and that is when the
    [Decrement] calls of the sequence outnumber its [Increment] calls by
    one. *)
Theorem zero_transition_once_no_teardown (cs : list call) :
  teardowns (run invoke cs DerivedControlBlock_new) = 0%nat
  /\ (respects invoke holds_reference cs DerivedControlBlock_new = true ->
      (zero_decrements cs DerivedControlBlock_new <= 1)%nat
      /\ (zero_decrements cs DerivedControlBlock_new = 1%nat
          <-> count (post (run invoke cs DerivedControlBlock_new)) = 0)
      /\ (zero_decrements cs DerivedControlBlock_new = 1%nat
          <-> net cs = -1)).
Proof.
  assert (Hr : Int.in_range (count DerivedControlBlock_new))
    by (cbn; IntFacts.unfold_int; lia).
  split.
  - apply no_teardown.
  - intros Hres.
    destruct (zero_decrements_once cs DerivedControlBlock_new Hr
                ltac:(cbn; lia) Hres) as [Hle Hiff].
    split; [exact Hle|]. split; [exact Hiff|].
    rewrite Hiff.
    destruct (contract_count cs DerivedControlBlock_new Hr Hres)
      as [H | [H1 H2]]; cbn [count DerivedControlBlock_new] in *.
    + lia.
    + revert H1 H2. IntFacts.unfold_int. lia.
Qed.

Lemma zero_transition_once_no_teardown_witness :
  respects invoke holds_reference
    [CallIncrement; CallDecrement; CallGetCount; CallDecrement]
    DerivedControlBlock_new = true
  /\ teardowns (run invoke
                  [CallIncrement; CallDecrement; CallGetCount; CallDecrement]
                  DerivedControlBlock_new) = 0%nat
  /\ zero_decrements
       [CallIncrement; CallDecrement; CallGetCount; CallDecrement]
       DerivedControlBlock_new = 1%nat
  /\ count (post (run invoke
                    [CallIncrement; CallDecrement; CallGetCount; CallDecrement]
                    DerivedControlBlock_new)) = 0.
Proof.
  split; [reflexivity|]. split; [|split].
  - exact (proj1 (zero_transition_once_no_teardown
                    [CallIncrement; CallDecrement; CallGetCount; CallDecrement])).
  - exact (proj2 (proj2 (proj2 (proj2 (zero_transition_once_no_teardown
                    [CallIncrement; CallDecrement; CallGetCount; CallDecrement])
                    eq_refl))) eq_refl).
  - exact (proj1 (proj1 (proj2 (proj2 (zero_transition_once_no_teardown
                    [CallIncrement; CallDecrement; CallGetCount; CallDecrement])
                    eq_refl))) eq_refl).
Defined.

(** The [Decrement] that takes a fresh block to 0 runs no teardown. *)
Lemma teardown_never_runs_counterexample :
  count (post (run invoke [CallDecrement] DerivedControlBlock_new)) = 0
  /\ zero_decrements [CallDecrement] DerivedControlBlock_new = 1%nat
  /\ teardowns (run invoke [CallDecrement] DerivedControlBlock_new) = 0%nat
  /\ teardowns (run invoke [CallDecrement] DerivedControlBlock_new) <> 1%nat.
Proof. repeat split. discriminate. Qed.

(** C2, as the code has it.  [count >= 0] holds on a fresh block; a call
    preserves it when [Decrement] is called with [count >= 1] and [Increment]
    with [count < INT_MAX] ([GetCount] always does); so it holds after every
    call of every sequence on a fresh block that keeps to these two
    conditions. *)
Theorem count_non_negative_under_contract :
  0 <= count DerivedControlBlock_new
  /\ (forall (c : call) (cb : DerivedControlBlock),
        Int.in_range (count cb) ->
        0 <= count cb ->
        stays_non_negative c cb = true ->
        0 <= count (post (invoke c cb)))
  /\ (forall cs : list call,
        respects invoke stays_non_negative cs DerivedControlBlock_new = true ->
        Forall (fun cb => 0 <= count cb)
               (states invoke cs DerivedControlBlock_new)
        /\ 0 <= count (post (run invoke cs DerivedControlBlock_new))).
Proof.
  assert (Hr : Int.in_range (count DerivedControlBlock_new))
    by (cbn; IntFacts.unfold_int; lia).
  split; [cbn; lia|]. split.
  - exact stays_non_negative_step.
  - intros cs Hres. split.
    + apply stays_non_negative_states; [exact Hr | cbn; lia | exact Hres].
    + apply stays_non_negative_run; [exact Hr | cbn; lia | exact Hres].
Qed.

Lemma count_non_negative_under_contract_witness :
  respects invoke stays_non_negative
    [CallIncrement; CallDecrement; CallDecrement; CallGetCount]
    DerivedControlBlock_new = true
  /\ 0 <= count (post (run invoke
                         [CallIncrement; CallDecrement; CallDecrement;
                          CallGetCount]
                         DerivedControlBlock_new)).
Proof.
  split; [reflexivity|].
  exact (proj2 (proj2 (proj2 count_non_negative_under_contract)
                  [CallIncrement; CallDecrement; CallDecrement; CallGetCount]
                  eq_refl)).
Defined.

(** Two [Decrement] calls on a fresh block leave the counter at -1. *)
Lemma count_negative_counterexample :
  states invoke [CallDecrement; CallDecrement] DerivedControlBlock_new
  = [{| count := 0 |}; {| count := -1 |}]
  /\ count (post (run invoke [CallDecrement; CallDecrement]
                      DerivedControlBlock_new)) = -1
  /\ ~ Forall (fun cb => 0 <= count cb)
         (states invoke [CallDecrement; CallDecrement] DerivedControlBlock_new).
Proof.
  split; [reflexivity|]. split; [reflexivity|].
  intros H. inversion H as [|? ? _ H']; subst.
  inversion H' as [|? ? Hneg _]; subst. cbn in Hneg. lia.
Qed.

(** C3, as the code has it.  Once the counter of a block has reached 0 it is
    never positive at a later point of the sequence, provided every later
    [Increment] is called with [count >= 1] (which from then on excludes it)
    and no later [Decrement] is called at [INT_MIN]. *)
Theorem no_revival_under_contract (cs1 cs2 : list call) :
  count (post (run invoke cs1 DerivedControlBlock_new)) = 0 ->
  respects invoke no_revival cs2
    (post (run invoke cs1 DerivedControlBlock_new)) = true ->
  Forall (fun cb => count cb <= 0)
         (states invoke cs2 (post (run invoke cs1 DerivedControlBlock_new)))
  /\ count (post (run invoke (cs1 ++ cs2) DerivedControlBlock_new)) <= 0.
Proof.
  intros Hz Hres.
  assert (Hr : Int.in_range
                 (count (post (run invoke cs1 DerivedControlBlock_new))))
    by (rewrite Hz; IntFacts.unfold_int; lia).
  split.
  - apply no_revival_states; [exact Hr | lia | exact Hres].
  - rewrite (post_run_app invoke invoke_returns).
    apply no_revival_run; [exact Hr | lia | exact Hres].
Qed.

Lemma no_revival_under_contract_witness :
  count (post (run invoke [CallIncrement; CallDecrement; CallDecrement]
                   DerivedControlBlock_new)) = 0
  /\ respects invoke no_revival [CallGetCount; CallDecrement; CallGetCount]
       (post (run invoke [CallIncrement; CallDecrement; CallDecrement]
                  DerivedControlBlock_new)) = true
  /\ count (post (run invoke
                    ([CallIncrement; CallDecrement; CallDecrement]
                     ++ [CallGetCount; CallDecrement; CallGetCount])
                    DerivedControlBlock_new)) <= 0.
Proof.
  split; [reflexivity|]. split; [reflexivity|].
  exact (proj2 (no_revival_under_contract
                  [CallIncrement; CallDecrement; CallDecrement]
                  [CallGetCount; CallDecrement; CallGetCount]
                  eq_refl eq_refl)).
Defined.

(** [Decrement] takes a fresh block to 0 and the next [Increment] takes it
    back to 1. *)
Lemma revival_counterexample :
  count (post (run invoke [CallDecrement] DerivedControlBlock_new)) = 0
  /\ count (post (run invoke ([CallDecrement] ++ [CallIncrement])
                      DerivedControlBlock_new)) = 1
  /\ 0 < count (post (run invoke ([CallDecrement] ++ [CallIncrement])
                          DerivedControlBlock_new)).
Proof. repeat split. Qed.

(** ** The two-counter block *)






(** C5.  A fresh block has the counter at 1: [GetCount] (the document's
    [GetStrongCount]) returns 1 on it; the weak counter the document adds
    starts at 0. *)
Theorem fresh_block_counts :
  count DerivedControlBlock_new = 1
  /\ completed (GetCount DerivedControlBlock_new) = Returns 1
  /\ completed (GetStrongCount ControlBlock_new) = Returns 1
  /\ completed (GetWeakCount ControlBlock_new) = Returns 0.
Proof. repeat split. Qed.





(** Outside that contract: the source's [Increment] checks nothing, so an
    [AcquireStrong] made at 0 takes the counter back to 1 and the
    [TryUpgrade] that follows succeeds. *)
Lemma TryUpgrade_after_unchecked_AcquireStrong :
  completed
    (run perform
       [OpReleaseStrong; OpGetStrongCount; OpAcquireStrong; OpTryUpgrade;
        OpGetStrongCount]
       ControlBlock_new)
  = Returns [VVoid; VInt 0; VVoid; VBool true; VInt 2].
Proof. reflexivity. Qed.

(** ** More on how the calls compose *)

Lemma wrap_sub_l (a b : Z) : Int.wrap (Int.wrap a - b) = Int.wrap (a - b).
Proof.
  replace (Int.wrap a - b) with (Int.wrap a + - b) by ring.
  now rewrite IntFacts.wrap_add_l.
Qed.

Lemma wrap_eq_mod (a b : Z) :
  Int.wrap a = Int.wrap b -> a mod Int.modulus = b mod Int.modulus.
Proof.
  intros H. rewrite <- (IntFacts.wrap_mod a), <- (IntFacts.wrap_mod b).
  now rewrite H.
Qed.

(** Two calls made one after the other leave the same state in either
    order. *)
Lemma invoke_commute (x y : call) (cb : DerivedControlBlock) :
  post (invoke x (post (invoke y cb))) = post (invoke y (post (invoke x cb))).
Proof.
  rewrite !invoke_post.
  destruct x, y; cbn [count]; try reflexivity; f_equal;
    unfold Int.add, Int.sub.
  - rewrite wrap_sub_l, IntFacts.wrap_add_l. f_equal. ring.
  - rewrite wrap_sub_l, IntFacts.wrap_add_l. f_equal. ring.
Qed.

(** X1.  [Increment] and [Decrement] undo each other in every [int] state, the
    two ends of the range included: [INT_MAX] goes to [INT_MIN] and back. *)
Theorem Increment_Decrement_inverse (cb : DerivedControlBlock) :
  Int.in_range (count cb) ->
  post (Decrement (post (Increment cb))) = cb
  /\ post (Increment (post (Decrement cb))) = cb.
Proof.
  intros Hr. destruct cb as [c]. rewrite !Increment_eq, !Decrement_eq.
  cbn [post count] in *. unfold Int.add, Int.sub.
  rewrite wrap_sub_l, IntFacts.wrap_add_l.
  replace (c + 1 - 1) with c by ring. replace (c - 1 + 1) with c by ring.
  rewrite (IntFacts.wrap_small c Hr). split; reflexivity.
Qed.

Lemma Increment_Decrement_inverse_witness :
  Int.in_range Int.INT_MAX
  /\ post (Decrement (post (Increment {| count := Int.INT_MAX |})))
     = {| count := Int.INT_MAX |}
  /\ post (Increment (post (Decrement {| count := Int.INT_MIN |})))
     = {| count := Int.INT_MIN |}.
Proof.
  split; [IntFacts.unfold_int; lia|]. split.
  - apply (Increment_Decrement_inverse {| count := Int.INT_MAX |}).
    cbn. IntFacts.unfold_int. lia.
  - apply (Increment_Decrement_inverse {| count := Int.INT_MIN |}).
    cbn. IntFacts.unfold_int. lia.
Defined.

(** X2.  After any sequence of calls, made in any [int] state, [GetCount] returns
    the counter it started from plus the number of [Increment] calls minus
    the number of [Decrement] calls, reduced to an [int]. *)
Theorem GetCount_after_calls (cs : list call) (cb : DerivedControlBlock) :
  Int.in_range (count cb) ->
  completed (GetCount (post (run invoke cs cb)))
  = Returns (Int.wrap (count cb + net cs)).
Proof.
  intros Hr. rewrite GetCount_eq. cbn [completed]. f_equal.
  now apply count_after_run.
Qed.

Lemma GetCount_after_calls_witness :
  Int.in_range 5
  /\ completed
       (GetCount (post (run invoke
                          [CallDecrement; CallGetCount; CallIncrement;
                           CallDecrement; CallDecrement]
                          {| count := 5 |})))
     = Returns 3.
Proof.
  split; [IntFacts.unfold_int; lia|].
  apply (GetCount_after_calls
           [CallDecrement; CallGetCount; CallIncrement; CallDecrement;
            CallDecrement]
           {| count := 5 |}).
  cbn. IntFacts.unfold_int. lia.
Defined.

(** X3.  The state a sequence of calls leaves does not depend on the order of the
    calls: any rearrangement of the same calls leaves the same state. *)
Theorem run_order_irrelevant (cs1 cs2 : list call) (cb : DerivedControlBlock) :
  Permutation cs1 cs2 ->
  post (run invoke cs1 cb) = post (run invoke cs2 cb).
Proof.
  intros Hp. revert cb.
  induction Hp as [| x l l' _ IH | x y l | l l' l'' _ IH1 _ IH2]; intros cb.
  - reflexivity.
  - rewrite !(post_run_cons invoke invoke_returns). apply IH.
  - rewrite !(post_run_cons invoke invoke_returns).
    now rewrite invoke_commute.
  - now rewrite IH1.
Qed.

Lemma run_order_irrelevant_witness :
  Permutation [CallIncrement; CallDecrement; CallDecrement]
              [CallDecrement; CallDecrement; CallIncrement]
  /\ post (run invoke [CallIncrement; CallDecrement; CallDecrement]
               DerivedControlBlock_new)
     = post (run invoke [CallDecrement; CallDecrement; CallIncrement]
                 DerivedControlBlock_new).
Proof.
  assert (Hp : Permutation [CallIncrement; CallDecrement; CallDecrement]
                           [CallDecrement; CallDecrement; CallIncrement]).
  { apply perm_trans with [CallDecrement; CallIncrement; CallDecrement].
    - apply perm_swap.
    - apply perm_skip, perm_swap. }
  split; [exact Hp|].
  exact (run_order_irrelevant _ _ DerivedControlBlock_new Hp).
Defined.

(** X4.  On a fresh block, as long as 1 plus the increments minus the decrements
    fits in an [int], the counter is exactly that number (whatever happened in
    between), and it is 0 exactly when the decrements outnumber the increments
    by one. *)
Theorem count_is_exact_in_range (cs : list call) :
  Int.in_range (1 + net cs) ->
  count (post (run invoke cs DerivedControlBlock_new)) = 1 + net cs
  /\ (count (post (run invoke cs DerivedControlBlock_new)) = 0
      <-> net cs = -1).
Proof.
  intros Hr.
  assert (Hc : count (post (run invoke cs DerivedControlBlock_new))
               = 1 + net cs).
  { rewrite count_after_run by (cbn; IntFacts.unfold_int; lia).
    cbn [count DerivedControlBlock_new]. now apply IntFacts.wrap_small. }
  split; [exact Hc|]. rewrite Hc. lia.
Qed.

Lemma count_is_exact_in_range_witness :
  Int.in_range (1 + net [CallIncrement; CallDecrement; CallDecrement])
  /\ count (post (run invoke [CallIncrement; CallDecrement; CallDecrement]
                      DerivedControlBlock_new)) = 0.
Proof.
  split; [cbn; IntFacts.unfold_int; lia|].
  exact (eq_trans
           (proj1 (count_is_exact_in_range
                     [CallIncrement; CallDecrement; CallDecrement]
                     ltac:(cbn; IntFacts.unfold_int; lia)))
           eq_refl).
Defined.

(** X5.  The counter distinguishes [2^32] values and no more: [n] calls of
    [Increment] bring a block back to the state they started from exactly
    when [n] is a multiple of [2^32]. *)
Theorem Increment_period (n : nat) (cb : DerivedControlBlock) :
  Int.in_range (count cb) ->
  post (run invoke (repeat CallIncrement n) cb) = cb
  <-> Z.of_nat n mod 2 ^ 32 = 0.
Proof.
  intros Hr. change (2 ^ 32) with Int.modulus.
  assert (Hc : count (post (run invoke (repeat CallIncrement n) cb))
               = Int.wrap (count cb + Z.of_nat n)).
  { rewrite count_after_run by exact Hr. now rewrite net_repeat_Increment. }
  split.
  - intros Heq. rewrite Heq in Hc.
    rewrite <- (IntFacts.wrap_small (count cb) Hr) in Hc at 1.
    apply wrap_eq_mod in Hc.
    replace (Z.of_nat n) with (count cb + Z.of_nat n - count cb) by ring.
    rewrite Zminus_mod, <- Hc, Z.sub_diag. reflexivity.
  - intros Hm.
    destruct (post (run invoke (repeat CallIncrement n) cb)) as [c'].
    destruct cb as [c]. cbn [count] in *. f_equal. rewrite Hc.
    rewrite <- (IntFacts.wrap_small c Hr) at 2.
    apply IntFacts.wrap_congr.
    rewrite Z.add_mod, Hm, Z.add_0_r by discriminate.
    apply Z.mod_mod. discriminate.
Qed.

Lemma Increment_period_witness :
  Int.in_range (count DerivedControlBlock_new)
  /\ (post (run invoke (repeat CallIncrement 3) DerivedControlBlock_new)
      = DerivedControlBlock_new
      <-> Z.of_nat 3 mod 2 ^ 32 = 0).
Proof.
  split; [cbn; IntFacts.unfold_int; lia|].
  apply (Increment_period 3 DerivedControlBlock_new).
  cbn. IntFacts.unfold_int. lia.
Defined.
